(** * minitorch, module 0: the module tree and the operators library

    A shallow embedding of [minitorch/module.py] and
    [minitorch/operators.py], and the properties of the two that the
    specification states.

    Conventions of the embedding.
    - A Python exception is a value of [exn]; code that can raise returns
      a [result].
    - A Python [dict] is an association list in insertion order
      ([Dict.t]); its keys are pairwise distinct ([Dict.wf]).
    - A module object and the objects below it form a tree ([Module]);
      a method that mutates the tree returns the tree after the call.
    - A Python [float] is an IEEE 754 double ([Operators.float]), with
      the rounding, the infinities and the NaN of its arithmetic.  The
      functions that only compare and select take an [int] or a
      [float] and are stated on its exact value
      ([Operators.number]). *)

From Stdlib Require Import List String Ascii Bool ZArith Lia.
From Stdlib Require Import Reals Lra.
From Stdlib Require Import Floats.SpecFloat.
Import ListNotations.

Set Implicit Arguments.
Set Warnings "-register-all".

(** ** Exceptions *)

Inductive exn : Type :=
| ZeroDivisionError
| ValueError
| OverflowError
| KeyError.

Inductive result (A : Type) : Type :=
| Ok (a : A)
| Raise (e : exn).

Arguments Ok {A} a.
Arguments Raise {A} e.

Definition bind {A B : Type} (r : result A) (k : A -> result B) : result B :=
  match r with
  | Ok a => k a
  | Raise e => Raise e
  end.

Notation "x <- r ;; k" := (bind r (fun x => k))
  (at level 61, r at next level, right associativity).

(** [returns r]: the call ends with a value. *)
Definition returns {A : Type} (r : result A) : Prop := exists a, r = Ok a.

(** [raises r e]: the call ends with the exception [e]. *)
Definition raises {A : Type} (r : result A) (e : exn) : Prop := r = Raise e.

(** ** Dictionaries in insertion order *)

Module Dict.

Section Dict.
Variable V : Type.

Definition t : Type := list (string * V).

Definition empty : t := [].

Definition keys (d : t) : list string := List.map fst d.
Definition values (d : t) : list V := List.map snd d.
Definition items (d : t) : list (string * V) := d.

(** [key in d] *)
Fixpoint contains (key : string) (d : t) : bool :=
  match d with
  | [] => false
  | (k, _) :: rest => if String.eqb key k then true else contains key rest
  end.

(** [d[key]], which raises [KeyError] on a key that is absent *)
Fixpoint getitem (key : string) (d : t) : result V :=
  match d with
  | [] => Raise KeyError
  | (k, v) :: rest => if String.eqb key k then Ok v else getitem key rest
  end.

(** [d[key] = v]: a key already there keeps its place, a new one goes
    to the end *)
Fixpoint setitem (key : string) (v : V) (d : t) : t :=
  match d with
  | [] => [(key, v)]
  | (k, w) :: rest =>
      if String.eqb key k then (k, v) :: rest
      else (k, w) :: setitem key v rest
  end.

Definition wf (d : t) : Prop := NoDup (keys d).

End Dict.

Arguments empty {V}.

End Dict.

(** ** The module tree *)

Module ModuleTree.

Section Tree.
(** The values that parameters wrap. *)
Variable V : Type.

(** class [Parameter] ([Param] here: the source's name is a reserved
    word) *)
Record Param : Type := mkParam {
  value : V;
  name : option string
}.

Inductive Module : Type :=
| mkModule (training : bool)
           (_parameters : Dict.t Param)
           (_modules : list (string * Module)).

Definition training (m : Module) : bool :=
  let '(mkModule t _ _) := m in t.
Definition _parameters (m : Module) : Dict.t Param :=
  let '(mkModule _ ps _) := m in ps.
Definition _modules (m : Module) : Dict.t Module :=
  let '(mkModule _ _ ms) := m in ms.

(** [Module.__init__] *)
Definition __init__ : Module := mkModule true Dict.empty Dict.empty.

(** [Module.modules] *)
Definition modules (m : Module) : list Module := Dict.values (_modules m).

(** [Module.train]: the tree after the call *)
Fixpoint train (m : Module) : Module :=
  match m with
  | mkModule _ ps ms =>
      let fix loop (ms : list (string * Module)) : list (string * Module) :=
        match ms with
        | [] => []
        | (k, module) :: rest => (k, train module) :: loop rest
        end in
      mkModule true ps (loop ms)
  end.

(** [Module.eval]: the tree after the call *)
Fixpoint eval (m : Module) : Module :=
  match m with
  | mkModule _ ps ms =>
      let fix loop (ms : list (string * Module)) : list (string * Module) :=
        match ms with
        | [] => []
        | (k, module) :: rest => (k, eval module) :: loop rest
        end in
      mkModule false ps (loop ms)
  end.

(** The f-string [f"{module_name}.{param_name}"] *)
Definition qualify (module_name param_name : string) : string :=
  (module_name ++ "." ++ param_name)%string.

(** The inner loop of [named_parameters]: one [append] for each pair
    that the child returned *)
Fixpoint append_prefixed (module_name : string)
         (child : list (string * Param))
         (params : list (string * Param)) : list (string * Param) :=
  match child with
  | [] => params
  | (param_name, param) :: rest =>
      append_prefixed module_name rest
        (params ++ [(qualify module_name param_name, param)])
  end.

(** [Module.named_parameters] *)
Fixpoint named_parameters (m : Module) : list (string * Param) :=
  match m with
  | mkModule _ ps ms =>
      let fix loop (ms : list (string * Module))
                   (params : list (string * Param)) :=
        match ms with
        | [] => params
        | (module_name, module) :: rest =>
            loop rest
              (append_prefixed module_name (named_parameters module) params)
        end in
      loop ms (Dict.items ps)
  end.

(** [Module.parameters]: the values the generator yields, in order *)
Fixpoint parameters (m : Module) : list Param :=
  match m with
  | mkModule _ ps ms =>
      let fix loop (ms : list (string * Module)) : list Param :=
        match ms with
        | [] => []
        | (_, module) :: rest => parameters module ++ loop rest
        end in
      Dict.values ps ++ loop ms
  end.

(** [Parameter.__init__], for a value without [requires_grad_] *)
Definition new_parameter (x : V) (name : option string) : Param :=
  mkParam x name.

(** [Module.add_parameter]: the new parameter and the tree after the
    call *)
Definition add_parameter (k : string) (v : V) (m : Module)
  : Param * Module :=
  let val := new_parameter v (Some k) in
  (val, mkModule (training m) (Dict.setitem k val (_parameters m))
                 (_modules m)).

(** [Module.__setattr__] on a [Parameter] and on a [Module] *)
Definition setattr_parameter (key : string) (val : Param) (m : Module)
  : Module :=
  mkModule (training m) (Dict.setitem key val (_parameters m)) (_modules m).

Definition setattr_module (key : string) (val : Module) (m : Module)
  : Module :=
  mkModule (training m) (_parameters m) (Dict.setitem key val (_modules m)).

(** What [__getattr__] returns: a parameter, a module or [None] *)
Inductive attribute : Type :=
| AParameter (p : Param)
| AModule (m : Module)
| ANone.

(** [Module.__getattr__] *)
Definition __getattr__ (m : Module) (key : string) : result attribute :=
  if Dict.contains key (_parameters m) then
    p <- Dict.getitem key (_parameters m) ;; Ok (AParameter p)
  else if Dict.contains key (_modules m) then
    c <- Dict.getitem key (_modules m) ;; Ok (AModule c)
  else Ok ANone.

(** *** Notions the properties are stated with *)

(** A node and all its descendants, self first and children in
    insertion order (depth-first, pre-order). *)
Fixpoint nodes (m : Module) : list Module :=
  match m with
  | mkModule _ _ ms =>
      m :: flat_map (fun km => nodes (snd km)) ms
  end.

(** The qualified names that [named_parameters] produces. *)
Definition names (m : Module) : list string :=
  List.map fst (named_parameters m).

(** Every dict of the tree has pairwise distinct keys, as every Python
    dict has. *)
Definition wf_tree (m : Module) : Prop :=
  Forall (fun n => Dict.wf (_parameters n) /\ Dict.wf (_modules n))
         (nodes m).

(** The delimiter occurs in the string. *)
Fixpoint has_dot (s : string) : bool :=
  match s with
  | EmptyString => false
  | String c rest => if Ascii.eqb c "." then true else has_dot rest
  end.

Definition dotless (s : string) : Prop := has_dot s = false.

(** No parameter name and no attachment name of the tree holds the
    delimiter. *)
Definition dotless_tree (m : Module) : Prop :=
  Forall (fun n => Forall dotless (Dict.keys (_parameters n)) /\
                   Forall dotless (Dict.keys (_modules n)))
         (nodes m).

(** The spec's words for [named_parameters]: the node's own pairs,
    then for each child its pairs with the attachment name put in
    front. *)
Definition prefixed (module_name : string) (np : string * Param)
  : string * Param :=
  (qualify module_name (fst np), snd np).

Fixpoint named_parameters_spec (m : Module) : list (string * Param) :=
  match m with
  | mkModule _ ps ms =>
      ps ++ flat_map (fun km =>
               List.map (prefixed (fst km)) (named_parameters_spec (snd km)))
             ms
  end.

(** The spec's words for attribute reading: the first binding of a
    key, if there is one. *)
Definition lookup (A : Type) (key : string) (d : Dict.t A) : option A :=
  option_map snd (find (fun kv => String.eqb key (fst kv)) d).

(** Two trees that differ in training flags only: at each node the
    parameter dict is the same, and the child dict has the same keys
    in the same order, bound to children that again differ in flags
    only. *)
Inductive same_maps : Module -> Module -> Prop :=
| same_maps_node (t t' : bool) (ps : Dict.t Param)
                 (ms ms' : list (string * Module)) :
    Forall2 (fun km km' => fst km = fst km' /\ same_maps (snd km) (snd km'))
            ms ms' ->
    same_maps (mkModule t ps ms) (mkModule t' ps ms').

(** The tree of the spec's example: root parameter [b], child [lin]
    with parameter [w], built with the methods of the class. *)
Definition example_tree (vb vw : V) : Module :=
  let lin := snd (add_parameter "w" vw __init__) in
  setattr_module "lin" lin (snd (add_parameter "b" vb __init__)).

(** A tree in which a parameter name holds the delimiter: the root has
    the parameter [lin.w], and its child [lin] has the parameter [w]. *)
Definition collision_tree (v1 v2 : V) : Module :=
  let lin := snd (add_parameter "w" v2 __init__) in
  setattr_module "lin" lin (snd (add_parameter "lin.w" v1 __init__)).

(** *** The string representation *)

(** The newline character of ["\n"] *)
Definition newline : ascii := "010"%char.

(** [s.split("\n")]: the pieces between the newlines, never an empty
    list *)
Fixpoint split_newline (s : string) : list string :=
  match s with
  | EmptyString => [EmptyString]
  | String c rest =>
      if Ascii.eqb c newline then EmptyString :: split_newline rest
      else
        match split_newline rest with
        | first :: others => String c first :: others
        | [] => [String c EmptyString]
        end
  end.

(** [sep.join(l)] *)
Fixpoint join (sep : string) (l : list string) : string :=
  match l with
  | [] => EmptyString
  | [x] => x
  | x :: rest => (x ++ sep ++ join sep rest)%string
  end.

(** [numSpaces * " "] *)
Fixpoint spaces (numSpaces : nat) : string :=
  match numSpaces with
  | O => EmptyString
  | S n => String " " (spaces n)
  end.

(** [_addindent], the helper inside [__repr__]; [pop(0)] finds a first
    piece, since [split] returns at least one *)
Definition _addindent (s_ : string) (numSpaces : nat) : string :=
  let s2 := split_newline s_ in
  if Nat.eqb (List.length s2) 1 then s_
  else
    match s2 with
    | [] => s_
    | first :: s2 =>
        let s2 := List.map (fun line => (spaces numSpaces ++ line)%string) s2 in
        let s := join (String newline EmptyString) s2 in
        (first ++ String newline EmptyString ++ s)%string
    end.

(** [Module.__repr__], for an instance of the class [Module] itself,
    whose [__class__.__name__] is ["Module"] *)
Fixpoint __repr__ (m : Module) : string :=
  match m with
  | mkModule _ _ ms =>
      let fix loop (ms : list (string * Module)) (child_lines : list string) :=
        match ms with
        | [] => child_lines
        | (key, module) :: rest =>
            let mod_str := __repr__ module in
            let mod_str := _addindent mod_str 2 in
            loop rest (child_lines ++ [("(" ++ key ++ "): " ++ mod_str)%string])
        end in
      let lines := loop ms [] in
      let main_str := ("Module" ++ "(")%string in
      let main_str :=
        match lines with
        | [] => main_str
        | _ :: _ =>
            (main_str ++
             String newline "  " ++
             join (String newline "  ") lines ++
             String newline EmptyString)%string
        end in
      (main_str ++ ")")%string
  end.

(** A string with [numSpaces] spaces put after each of its newlines *)
Fixpoint indent_newlines (numSpaces : nat) (s : string) : string :=
  match s with
  | EmptyString => EmptyString
  | String c rest =>
      if Ascii.eqb c newline
      then String c (spaces numSpaces ++ indent_newlines numSpaces rest)
      else String c (indent_newlines numSpaces rest)
  end.

(** The text that [__repr__] gives for one child: a new line, the
    attachment name in brackets, and the child's text moved in by two
    spaces *)
Definition child_text (key : string) (text : string) : string :=
  (String newline "  (" ++ key ++ "): " ++ indent_newlines 2 text)%string.

End Tree.

End ModuleTree.

(** ** The operators library *)

Module Operators.

(** *** Python floats

    A Python [float] is an IEEE 754 double.  Its arithmetic is the
    arithmetic of binary64 with rounding to nearest, ties to even, as
    [SpecFloat] defines it: [x + y], [x - y], [x * y], [-x] and [abs(x)]
    never raise (they give an infinity or a NaN instead), and the
    comparisons are false on a NaN. *)
Definition float : Type := spec_float.

Definition prec : Z := 53.
Definition emax : Z := 1024.

(** The literals [0.0], [1.0] and [1e-2] *)
Definition zero : float := S754_zero false.
Definition one : float := S754_finite false 4503599627370496 (-52).
Definition hundredth : float := S754_finite false 5764607523034235 (-59).

Definition is_nan (x : float) : bool :=
  match x with
  | S754_nan => true
  | _ => false
  end.

Definition is_inf (x : float) : bool :=
  match x with
  | S754_infinity _ => true
  | _ => false
  end.

Definition is_finite (x : float) : bool := negb (is_nan x || is_inf x).

Definition float_add (x y : float) : float := SFadd prec emax x y.
Definition float_sub (x y : float) : float := SFsub prec emax x y.
Definition float_mul (x y : float) : float := SFmul prec emax x y.
Definition float_neg (x : float) : float := SFopp x.
Definition float_abs (x : float) : float := SFabs x.

(** [x < y] and [x >= y]; the int literal [0] compares as [0.0] *)
Definition float_lt (x y : float) : bool := SFltb x y.
Definition float_ge (x y : float) : bool := SFleb y x.

(** [x / y]: a divisor equal to zero ([0.0] or [-0.0]) raises, every
    other division is the IEEE one *)
Definition float_truediv (x y : float) : result float :=
  if SFeqb y zero then Raise ZeroDivisionError
  else Ok (SFdiv prec emax x y).

(** *** The C library

    [math.exp], [math.log] and [x ** 2] call [exp], [log] and [pow] of
    the C library.  Where the exact result lies far outside the range of
    a double, what the C function returns is fixed: an infinity above
    the range, zero below it.  Elsewhere the result is a rounded value
    that is not determined here; it is what the three variables
    stand for. *)

(** [710.0], above the largest argument on which [exp] is finite *)
Definition exp_overflows_from : float :=
  S754_finite false 6245226045767680 (-43).

(** [2.0 ** 512], whose square is above every double *)
Definition square_overflows_from : float :=
  S754_finite false 4503599627370496 460.

(** [2.0 ** -538], whose square is a quarter of the smallest positive
    double *)
Definition square_vanishes_upto : float :=
  S754_finite false 4503599627370496 (-590).

Section Libm.
Variable libm_exp : float -> float.
Variable libm_log : float -> float.
Variable libm_pow2 : float -> float.

(** C [exp(x)] *)
Definition c_exp (x : float) : float :=
  if is_finite x && SFleb exp_overflows_from x then S754_infinity false
  else libm_exp x.

(** C [pow(x, 2.0)] for a finite [x > 0] *)
Definition c_pow2 (x : float) : float :=
  if SFleb square_overflows_from x then S754_infinity false
  else if SFleb x square_vanishes_upto then zero
  else libm_pow2 x.

(** [math.exp]: a NaN from the C function on an argument that is a
    number is a domain error, an infinity on a finite argument a range
    error *)
Definition math_exp (x : float) : result float :=
  let r := c_exp x in
  if is_nan r && negb (is_nan x) then Raise ValueError
  else if is_inf r && is_finite x then Raise OverflowError
  else Ok r.

(** [math.log]: a NaN and the positive infinity come back as they are,
    an argument that is not positive is a domain error ("math domain
    error"), and so is a NaN or an infinity from the C function on a
    finite positive argument *)
Definition math_log (x : float) : result float :=
  if is_nan x then Ok x
  else if SFleb x zero then Raise ValueError
  else if is_inf x then Ok x
  else
    let r := libm_log x in
    if is_nan r || is_inf r then Raise ValueError
    else Ok r.

(** [x ** 2]: the cases that Python settles itself (a NaN, an infinity,
    zero, one), and for the others the C function on the absolute
    value, whose infinity is a range error *)
Definition float_pow2 (x : float) : result float :=
  if is_nan x then Ok x
  else if is_inf x then Ok (float_abs x)
  else if SFeqb x zero then Ok zero
  else
    let iv := if SFltb x zero then float_neg x else x in
    if SFeqb iv one then Ok one
    else
      let ix := c_pow2 iv in
      if is_inf ix then Raise OverflowError
      else Ok ix.

(** *** Python numbers, for the functions that compare and select

    [relu] and [relu_back] pass the [int] literal [0] on and return it,
    so the functions that only compare, select or negate their
    arguments take an [int] or a [float]; they are stated on the exact
    value of the number, which is all that they look at. *)
Inductive number : Type :=
| PyInt (z : Z)
| PyFloat (r : R).

Definition to_R (x : number) : R :=
  match x with
  | PyInt z => IZR z
  | PyFloat r => r
  end.

(** [-x] keeps the type *)
Definition py_neg (x : number) : number :=
  match x with
  | PyInt a => PyInt (- a)
  | PyFloat r => PyFloat (- r)
  end.

(** [x < y], [x > y], [x == y] compare the values *)
Definition py_lt (x y : number) : bool :=
  if Rlt_dec (to_R x) (to_R y) then true else false.

Definition py_gt (x y : number) : bool :=
  if Rgt_dec (to_R x) (to_R y) then true else false.

Definition py_eq (x y : number) : bool :=
  if Req_dec_T (to_R x) (to_R y) then true else false.

(** *** Task 0.1 *)

Definition mul (x y : float) : float := float_mul x y.

Fixpoint prod_loop (lst : list float) (result : float) : float :=
  match lst with
  | [] => result
  | num :: rest => prod_loop rest (float_mul result num)
  end.

Definition prod (lst : list float) : float := prod_loop lst one.

Definition id (x : number) : number := x.

Definition add (x y : float) : float := float_add x y.

Definition neg (x : number) : number := py_neg x.

Definition lt (x y : number) : bool := py_lt x y.

Definition eq (x y : number) : bool := py_eq x y.

Definition max (x y : number) : number := if py_gt x y then x else y.

Definition is_close (x y : float) : bool :=
  float_lt (float_abs (float_sub x y)) hundredth.

Definition sigmoid (x : float) : result float :=
  if float_ge x zero
  then
    e <- math_exp (float_neg x) ;;
    float_truediv one (float_add one e)
  else
    e1 <- math_exp x ;;
    e2 <- math_exp x ;;
    float_truediv e1 (float_add one e2).

Definition relu (x : number) : number := max (PyInt 0) x.

Definition log (x : float) : result float := math_log x.

Definition exp (x : float) : result float := math_exp x.

Definition log_back (x d : float) : result float := float_truediv d x.

Definition inv (x : float) : result float := float_truediv one x.

Definition inv_back (x d : float) : result float :=
  let minus_d := float_neg d in
  square <- float_pow2 x ;;
  float_truediv minus_d square.

Definition relu_back (x d : number) : number :=
  if py_gt x (PyInt 0) then d else PyInt 0.

End Libm.

(** A stand-in for the three variables, for a call that does not reach
    the C library or is settled by the range of its argument *)
Definition not_reached : float -> float := fun _ => S754_nan.

(** *** Task 0.3

    The functions take lists of any elements.  The function that is
    passed in may raise; what it raises leaves the caller. *)

Section HigherOrder.
Variables A B C : Type.

Fixpoint map (fn : A -> result B) (lst : list A) : result (list B) :=
  match lst with
  | [] => Ok []
  | x :: rest =>
      y <- fn x ;;
      ys <- map fn rest ;;
      Ok (y :: ys)
  end.

Fixpoint zipWith (fn : A -> B -> result C) (lst1 : list A) (lst2 : list B)
  : result (list C) :=
  match lst1, lst2 with
  | x :: rest1, y :: rest2 =>
      z <- fn x y ;;
      zs <- zipWith fn rest1 rest2 ;;
      Ok (z :: zs)
  | _, _ => Ok []
  end.

Fixpoint reduce (fn : B -> A -> result B) (lst : list A) (start : B)
  : result B :=
  match lst with
  | [] => Ok start
  | x :: rest =>
      result <- fn start x ;;
      reduce fn rest result
  end.

(** A function of the library that cannot raise, passed as an argument *)
Definition fn1 (f : A -> B) : A -> result B :=
  fun x => Ok (f x).

Definition fn2 (f : A -> B -> C) : A -> B -> result C :=
  fun x y => Ok (f x y).

End HigherOrder.

Definition negList (lst : list number) : result (list number) :=
  map (fn1 neg) lst.

Definition addLists (lst1 lst2 : list float) : result (list float) :=
  zipWith (fn2 add) lst1 lst2.

Definition sumList (lst : list float) : result float :=
  reduce (fn2 add) lst zero.

Definition prodList (lst : list float) : result float :=
  reduce (fn2 mul) lst one.

(** *** The spec's words, to compare the code with *)

Local Open Scope R_scope.

(** [max]: "returns y when y>x else x" *)
Definition max_spec (x y : number) : number := if py_gt y x then y else x.

(** [relu] as a function of a real argument *)
Definition relu_at (r : R) : R := to_R (relu (PyFloat r)).

End Operators.

(** * Properties of the module tree *)

Module ModuleTreeFacts.
Import ModuleTree.

Section Facts.
Variable V : Type.

Local Abbreviation Module := (Module V).
Local Abbreviation Param := (Param V).

(** Induction over the tree: a property holds at a node when it holds
    at every child. *)
Lemma Module_tree_ind (P : Module -> Prop) :
  (forall t ps ms,
      Forall (fun km : string * Module => P (snd km)) ms ->
      P (mkModule t ps ms)) ->
  forall m, P m.
Proof.
  intros step. fix IH 1. intros [t ps ms]. apply step.
  induction ms as [|[k c] rest IHrest]; constructor.
  - apply IH.
  - exact IHrest.
Qed.

(** *** The loops, as list functions *)

Lemma train_unfold t ps (ms : list (string * Module)) :
  train (mkModule t ps ms) =
  mkModule true ps (List.map (fun km => (fst km, train (snd km))) ms).
Proof.
  simpl. f_equal.
  induction ms as [|[k c] rest IHrest]; simpl; [reflexivity|].
  now rewrite IHrest.
Qed.

Lemma eval_unfold t ps (ms : list (string * Module)) :
  eval (mkModule t ps ms) =
  mkModule false ps (List.map (fun km => (fst km, eval (snd km))) ms).
Proof.
  simpl. f_equal.
  induction ms as [|[k c] rest IHrest]; simpl; [reflexivity|].
  now rewrite IHrest.
Qed.

Lemma append_prefixed_app module_name (child params : list (string * Param)) :
  append_prefixed module_name child params =
  params ++ List.map (prefixed module_name) child.
Proof.
  revert params.
  induction child as [|[n p] rest IHrest]; intros params; simpl.
  - now rewrite app_nil_r.
  - rewrite IHrest, <- app_assoc. reflexivity.
Qed.

Lemma named_parameters_unfold t ps (ms : list (string * Module)) :
  named_parameters (mkModule t ps ms) =
  ps ++ flat_map (fun km =>
           List.map (prefixed (fst km)) (named_parameters (snd km))) ms.
Proof.
  simpl. unfold Dict.items.
  generalize ps as acc.
  induction ms as [|[k c] rest IHrest]; intros acc; simpl.
  - now rewrite app_nil_r.
  - rewrite IHrest, append_prefixed_app, <- app_assoc. reflexivity.
Qed.

Lemma parameters_unfold t ps (ms : list (string * Module)) :
  parameters (mkModule t ps ms) =
  Dict.values ps ++ flat_map (fun km => parameters (snd km)) ms.
Proof.
  simpl. f_equal.
  induction ms as [|[k c] rest IHrest]; simpl; [reflexivity|].
  now rewrite IHrest.
Qed.

Lemma named_parameters_refines (m : Module) :
  named_parameters m = named_parameters_spec m.
Proof.
  induction m as [t ps ms IH] using Module_tree_ind.
  rewrite named_parameters_unfold. simpl. f_equal.
  induction IH as [|[k c] rest Hc _ IHrest]; simpl; [reflexivity|].
  simpl in Hc. now rewrite Hc, IHrest.
Qed.

(** C4. [named_parameters] returns the node's own parameters first, in
    insertion order, then for each child in insertion order the child's
    [named_parameters] with the attachment name and a dot put in front
    of each name; the tree with root parameter [b] and child [lin]
    holding [w] gives [b] and then [lin.w]. *)
Theorem named_parameters_order :
  (forall t ps (ms : list (string * Module)),
      named_parameters (mkModule t ps ms) =
      Dict.items ps ++
      flat_map (fun km =>
          List.map (fun np => ((fst km ++ "." ++ fst np)%string, snd np))
                   (named_parameters (snd km))) ms) /\
  (forall m : Module, named_parameters m = named_parameters_spec m) /\
  (forall vb vw : V,
      named_parameters (example_tree vb vw) =
      [("b"%string, mkParam vb (Some "b"%string));
       ("lin.w"%string, mkParam vw (Some "w"%string))]).
Proof.
  split; [|split].
  - intros. apply named_parameters_unfold.
  - apply named_parameters_refines.
  - intros. reflexivity.
Qed.

(** C5. [parameters] yields, in the same order, the second components
    of the pairs of [named_parameters]. *)
Theorem parameters_named_parameters (m : Module) :
  parameters m = List.map snd (named_parameters m).
Proof.
  induction m as [t ps ms IH] using Module_tree_ind.
  rewrite parameters_unfold, named_parameters_unfold, map_app.
  unfold Dict.values. f_equal.
  induction IH as [|[k c] rest Hc _ IHrest]; simpl; [reflexivity|].
  simpl in Hc.
  rewrite map_app, map_map, Hc, IHrest. simpl.
  reflexivity.
Qed.

(** *** Reading an attribute *)

Lemma contains_lookup (A : Type) key (d : Dict.t A) :
  Dict.contains key d =
  match lookup key d with Some _ => true | None => false end.
Proof.
  unfold lookup.
  induction d as [|[k v] rest IHrest]; simpl; [reflexivity|].
  destruct (String.eqb key k); simpl; [reflexivity | exact IHrest].
Qed.

Lemma getitem_lookup (A : Type) key (d : Dict.t A) :
  Dict.getitem key d =
  match lookup key d with Some v => Ok v | None => Raise KeyError end.
Proof.
  unfold lookup.
  induction d as [|[k v] rest IHrest]; simpl; [reflexivity|].
  destruct (String.eqb key k); simpl; [reflexivity | exact IHrest].
Qed.

(** C8. Reading a name through [__getattr__] never raises: it gives the
    parameter bound to the name when the parameter dict has one, else
    the child module bound to the name when the child dict has one,
    else [None]. *)
Theorem getattr_lookup (m : Module) (key : string) :
  __getattr__ m key =
  Ok (match lookup key (_parameters m) with
      | Some p => AParameter p
      | None =>
          match lookup key (_modules m) with
          | Some c => AModule c
          | None => ANone V
          end
      end).
Proof.
  unfold __getattr__.
  rewrite !contains_lookup, !getitem_lookup.
  destruct (lookup key (_parameters m)) as [p|]; [reflexivity|].
  destruct (lookup key (_modules m)) as [c|]; reflexivity.
Qed.

(** *** Training mode *)

Lemma nodes_unfold t ps (ms : list (string * Module)) :
  nodes (mkModule t ps ms) =
  mkModule t ps ms :: flat_map (fun km => nodes (snd km)) ms.
Proof. reflexivity. Qed.

Lemma flat_map_map (A B C : Type) (f : A -> B) (g : B -> list C) l :
  flat_map g (List.map f l) = flat_map (fun a => g (f a)) l.
Proof.
  induction l as [|a l IHl]; simpl; [reflexivity | now rewrite IHl].
Qed.

Lemma map_flat_map (A B C : Type) (f : B -> C) (g : A -> list B) l :
  List.map f (flat_map g l) = flat_map (fun a => List.map f (g a)) l.
Proof.
  induction l as [|a l IHl]; simpl; [reflexivity|].
  now rewrite map_app, IHl.
Qed.

Lemma flat_map_Forall_ext (A B : Type) (f g : A -> list B) l :
  Forall (fun a => f a = g a) l -> flat_map f l = flat_map g l.
Proof.
  induction 1 as [|a l Ha _ IHl]; simpl; [reflexivity|].
  now rewrite Ha, IHl.
Qed.

Lemma map_Forall_ext (A B : Type) (f g : A -> B) l :
  Forall (fun a => f a = g a) l -> List.map f l = List.map g l.
Proof.
  induction 1 as [|a l Ha _ IHl]; simpl; [reflexivity|].
  now rewrite Ha, IHl.
Qed.

(** The flags of the nodes after a traversal that sets the mode to [b],
    read off node by node against the nodes before the call. *)
Lemma flags_after (walk : Module -> Module) (b : bool) :
  (forall t ps ms,
      walk (mkModule t ps ms) =
      mkModule b ps (List.map (fun km => (fst km, walk (snd km))) ms)) ->
  forall m,
    List.map (@training V) (nodes (walk m)) =
    List.map (fun _ => b) (nodes m).
Proof.
  intros walk_unfold m.
  induction m as [t ps ms IH] using Module_tree_ind.
  rewrite walk_unfold, !nodes_unfold. simpl. f_equal.
  rewrite flat_map_map, !map_flat_map. simpl.
  now apply flat_map_Forall_ext.
Qed.

Lemma walk_idempotent (walk : Module -> Module) (b : bool) :
  (forall t ps ms,
      walk (mkModule t ps ms) =
      mkModule b ps (List.map (fun km => (fst km, walk (snd km))) ms)) ->
  forall m, walk (walk m) = walk m.
Proof.
  intros walk_unfold m.
  induction m as [t ps ms IH] using Module_tree_ind.
  rewrite !walk_unfold. f_equal.
  rewrite map_map. simpl.
  apply map_Forall_ext.
  eapply Forall_impl; [|exact IH].
  intros km Hkm. simpl in Hkm. now rewrite Hkm.
Qed.

Lemma all_flags (A : Type) (b : bool) (l : list Module) (l' : list A) :
  List.map (@training V) l = List.map (fun _ => b) l' ->
  Forall (fun x => training x = b) l.
Proof.
  revert l'. induction l as [|x l IHl]; intros [|a l'] E; simpl in E;
    try discriminate; constructor.
  - now injection E.
  - injection E as _ E. now apply (IHl l').
Qed.

(** C6. [train] sets the flag to true, and [eval] to false, at the node
    and at every descendant; each is a total function of the tree, and
    a second call changes nothing. *)
Theorem train_eval_flags (m : Module) :
  (List.map (@training V) (nodes (train m)) =
   List.map (fun _ => true) (nodes m) /\
   Forall (fun n => training n = true) (nodes (train m))) /\
  (List.map (@training V) (nodes (eval m)) =
   List.map (fun _ => false) (nodes m) /\
   Forall (fun n => training n = false) (nodes (eval m))) /\
  train (train m) = train m /\
  eval (eval m) = eval m.
Proof.
  pose proof (flags_after (@train V) train_unfold) as Ht.
  pose proof (flags_after (@eval V) eval_unfold) as He.
  repeat split.
  - apply Ht.
  - eapply all_flags. apply Ht.
  - apply He.
  - eapply all_flags. apply He.
  - apply (walk_idempotent (@train V) train_unfold).
  - apply (walk_idempotent (@eval V) eval_unfold).
Qed.

Lemma walk_same_maps (walk : Module -> Module) (b : bool) :
  (forall t ps ms,
      walk (mkModule t ps ms) =
      mkModule b ps (List.map (fun km => (fst km, walk (snd km))) ms)) ->
  forall m, same_maps m (walk m).
Proof.
  intros walk_unfold m.
  induction m as [t ps ms IH] using Module_tree_ind.
  rewrite walk_unfold. constructor.
  induction IH as [|km rest Hkm _ IHrest]; simpl; constructor.
  - split; [reflexivity | exact Hkm].
  - exact IHrest.
Qed.

Lemma same_maps_nodes (m m' : Module) :
  same_maps m m' ->
  List.map (@_parameters V) (nodes m') = List.map (@_parameters V) (nodes m) /\
  List.map (fun n => Dict.keys (_modules n)) (nodes m') =
  List.map (fun n => Dict.keys (_modules n)) (nodes m).
Proof.
  revert m'.
  induction m as [t ps ms IH] using Module_tree_ind.
  intros m' H. inversion H as [t0 t' ps0 ms0 ms' Hall]; subst.
  rewrite !nodes_unfold. simpl.
  assert (Dict.keys ms' = Dict.keys ms /\
          List.map (@_parameters V) (flat_map (fun km => nodes (snd km)) ms') =
          List.map (@_parameters V) (flat_map (fun km => nodes (snd km)) ms) /\
          List.map (fun n => Dict.keys (_modules n))
                   (flat_map (fun km => nodes (snd km)) ms') =
          List.map (fun n => Dict.keys (_modules n))
                   (flat_map (fun km => nodes (snd km)) ms)) as (Hk & Hp & Hm).
  { clear H. induction Hall as [|km km' rest rest' [Hfst Hsame] _ IHall];
      [repeat split|].
    inversion IH as [|? ? Hkm IHrest]; subst.
    destruct (IHall IHrest) as (Hk & Hp & Hm).
    destruct (Hkm _ Hsame) as [Hp1 Hm1].
    unfold Dict.keys in *. simpl.
    rewrite !map_app, Hp, Hm, Hp1, Hm1, Hk, Hfst.
    repeat split. }
  rewrite Hk, Hp, Hm. split; reflexivity.
Qed.

(** C10. [train] and [eval] leave the two dicts of every node as they
    were: the tree after the call differs from the tree before it in
    training flags only, so node by node the parameter dict is the same
    and the child dict has the same keys in the same order. *)
Theorem train_eval_frame (m : Module) :
  (same_maps m (train m) /\
   List.map (@_parameters V) (nodes (train m)) =
   List.map (@_parameters V) (nodes m) /\
   List.map (fun n => Dict.keys (_modules n)) (nodes (train m)) =
   List.map (fun n => Dict.keys (_modules n)) (nodes m)) /\
  (same_maps m (eval m) /\
   List.map (@_parameters V) (nodes (eval m)) =
   List.map (@_parameters V) (nodes m) /\
   List.map (fun n => Dict.keys (_modules n)) (nodes (eval m)) =
   List.map (fun n => Dict.keys (_modules n)) (nodes m)).
Proof.
  pose proof (walk_same_maps (@train V) train_unfold m) as Ht.
  pose proof (walk_same_maps (@eval V) eval_unfold m) as He.
  split; (split; [assumption | now apply same_maps_nodes]).
Qed.

(** *** Qualified names *)

Lemma names_unfold t ps (ms : list (string * Module)) :
  names (mkModule t ps ms) =
  Dict.keys ps ++
  flat_map (fun km => List.map (qualify (fst km)) (names (snd km))) ms.
Proof.
  unfold names. rewrite named_parameters_unfold, map_app, map_flat_map.
  unfold Dict.keys. f_equal.
  apply flat_map_ext. intros km. now rewrite !map_map.
Qed.

Lemma has_dot_qualify (k n : string) : has_dot (qualify k n) = true.
Proof.
  unfold qualify. induction k as [|c k IHk]; simpl; [reflexivity|].
  destruct (Ascii.eqb c "."); [reflexivity | exact IHk].
Qed.

(** The attachment name ends at the first dot of a qualified name. *)
Lemma qualify_inj (k k' n n' : string) :
  dotless k -> dotless k' -> qualify k n = qualify k' n' ->
  k = k' /\ n = n'.
Proof.
  unfold dotless, qualify. revert k'.
  induction k as [|c k IHk]; intros [|c' k'] Hk Hk' E; simpl in *.
  - injection E as E. now split.
  - injection E as Ec _. subst c'. simpl in Hk'. discriminate.
  - injection E as Ec _. subst c. simpl in Hk. discriminate.
  - injection E as Ec E. subst c'.
    destruct (Ascii.eqb c "."); [discriminate|].
    destruct (IHk k' Hk Hk' E) as [-> ->]. now split.
Qed.

Lemma qualify_same_prefix (k n n' : string) :
  qualify k n = qualify k n' -> n = n'.
Proof.
  unfold qualify. induction k as [|c k IHk]; simpl; intros E.
  - now injection E.
  - injection E as E. now apply IHk.
Qed.

Lemma NoDup_map_qualify (k : string) (l : list string) :
  NoDup l -> NoDup (List.map (qualify k) l).
Proof.
  induction 1 as [|n l Hn _ IHl]; simpl; constructor; [|exact IHl].
  intros Hin. apply in_map_iff in Hin as (n' & E & Hn').
  apply qualify_same_prefix in E. subst n'. contradiction.
Qed.

Lemma NoDup_children (ms : list (string * Module)) :
  NoDup (Dict.keys ms) ->
  Forall dotless (Dict.keys ms) ->
  Forall (fun km => NoDup (names (snd km))) ms ->
  NoDup (flat_map (fun km => List.map (qualify (fst km)) (names (snd km))) ms).
Proof.
  unfold Dict.keys.
  induction ms as [|[k c] rest IHrest]; simpl; intros Hkeys Hdot Hnames.
  - constructor.
  - inversion Hkeys as [|? ? Hk Hrest]; subst.
    inversion Hdot as [|? ? Hkdot Hrestdot]; subst.
    inversion Hnames as [|? ? Hc Hrestnames]; subst.
    apply NoDup_app.
    + now apply NoDup_map_qualify.
    + now apply IHrest.
    + intros a Ha Ha'.
      apply in_map_iff in Ha as (n & <- & _).
      apply in_flat_map in Ha' as ([k' c'] & Hin & Ha').
      apply in_map_iff in Ha' as (n' & E & _). simpl in E.
      assert (dotless k') as Hk'dot.
      { rewrite Forall_forall in Hrestdot. apply Hrestdot.
        apply in_map_iff. now exists (k', c'). }
      destruct (qualify_inj _ _ Hk'dot Hkdot E) as [-> _].
      apply Hk. apply in_map_iff. now exists (k, c').
Qed.

(** X28. When no parameter name and no attachment name of the tree
    holds a dot, the qualified names that [named_parameters] produces
    are pairwise distinct. *)
Theorem names_distinct (m : Module) :
  wf_tree m -> dotless_tree m -> NoDup (names m).
Proof.
  unfold wf_tree, dotless_tree.
  induction m as [t ps ms IH] using Module_tree_ind.
  rewrite nodes_unfold, names_unfold.
  intros Hwf Hdot.
  apply Forall_cons_iff in Hwf as [[Hps Hms] Hwf].
  apply Forall_cons_iff in Hdot as [[Hpsdot Hmsdot] Hdot].
  simpl in Hps, Hms, Hpsdot, Hmsdot.
  apply Forall_flat_map in Hwf, Hdot.
  apply NoDup_app.
  - exact Hps.
  - apply NoDup_children; [exact Hms | exact Hmsdot |].
    rewrite Forall_forall in IH, Hwf, Hdot |- *.
    intros km Hkm. apply IH; auto.
  - intros a Ha Ha'.
    rewrite Forall_forall in Hpsdot. specialize (Hpsdot a Ha).
    apply in_flat_map in Ha' as (km & _ & Ha').
    apply in_map_iff in Ha' as (n & <- & _).
    unfold dotless in Hpsdot. rewrite has_dot_qualify in Hpsdot.
    discriminate.
Qed.

End Facts.

(** The tree of the spec's example satisfies the two conditions, so its
    qualified names are distinct. *)
Lemma names_distinct_witness : NoDup (names (example_tree 1%Z 2%Z)).
Proof.
  apply (@names_distinct Z (example_tree 1%Z 2%Z)).
  - unfold wf_tree, Dict.wf. simpl.
    repeat constructor; simpl; intuition discriminate.
  - unfold dotless_tree, dotless. simpl.
    repeat constructor.
Defined.

(** C2. The prefix that [named_parameters] puts in front "to make it
    unique" does not make the names unique when a name holds a dot: in
    [collision_tree] every dict has distinct keys, and the name [lin.w]
    is produced twice, once for the root's own parameter and once for
    the parameter [w] of the child [lin]. *)
Lemma names_collide :
  wf_tree (collision_tree 1%Z 2%Z) /\
  names (collision_tree 1%Z 2%Z) = ["lin.w"%string; "lin.w"%string] /\
  ~ NoDup (names (collision_tree 1%Z 2%Z)).
Proof.
  split; [|split].
  - unfold wf_tree, Dict.wf. simpl.
    repeat constructor; simpl; intuition discriminate.
  - reflexivity.
  - intros H. inversion H as [|? ? Hin _]; subst.
    apply Hin. left. reflexivity.
Qed.

End ModuleTreeFacts.

(** * Properties of the operators library *)

Module OperatorsFacts.
Import Operators.

(** *** Results *)

Lemma returns_Ok (A : Type) (a : A) : returns (Ok a).
Proof. now exists a. Qed.

Lemma raise_not_returns (A : Type) (e : exn) : ~ returns (@Raise A e).
Proof. intros [a Ha]. discriminate. Qed.

(** *** The product of a list *)

Lemma reduce_mul_prod_loop lst acc :
  reduce (fn2 mul) lst acc = Ok (prod_loop lst acc).
Proof.
  revert acc. induction lst as [|x rest IHrest]; intros acc; simpl.
  - reflexivity.
  - apply IHrest.
Qed.

(** C9. [prodList], the fold of [mul] with seed 1.0 by [reduce],
    returns on every list the value that the loop of [prod] returns. *)
Theorem prodList_prod (lst : list float) : prodList lst = Ok (prod lst).
Proof. unfold prodList, prod. apply reduce_mul_prod_loop. Qed.

(** *** Comparison of numbers *)

Local Open Scope R_scope.

Lemma py_eq_true x y : py_eq x y = true <-> to_R x = to_R y.
Proof.
  unfold py_eq. destruct (Req_dec_T (to_R x) (to_R y)); split;
    intros; try assumption; try reflexivity; try discriminate; contradiction.
Qed.

Lemma py_gt_true x y : py_gt x y = true <-> to_R x > to_R y.
Proof.
  unfold py_gt. destruct (Rgt_dec (to_R x) (to_R y)); split;
    intros; try assumption; try reflexivity; try discriminate; contradiction.
Qed.

(** *** The maximum of two numbers *)

Lemma to_R_max x y : to_R (max x y) = Rmax (to_R x) (to_R y).
Proof.
  unfold max, py_gt.
  destruct (Rgt_dec (to_R x) (to_R y)) as [H|H].
  - rewrite Rmax_left; lra.
  - rewrite Rmax_right; lra.
Qed.

Lemma to_R_max_spec x y : to_R (max_spec x y) = Rmax (to_R x) (to_R y).
Proof.
  unfold max_spec, py_gt.
  destruct (Rgt_dec (to_R y) (to_R x)) as [H|H].
  - rewrite Rmax_right; lra.
  - rewrite Rmax_left; lra.
Qed.

(** C3, as the code has it. [max x y] returns [x] when [x > y] and
    returns [y] otherwise: when [y > x], and also on a tie, where the
    second argument is the one returned.  Its value is the value of the
    spec's formula, the larger of the two. *)
Theorem max_returns (x y : number) :
  (py_gt x y = true -> max x y = x) /\
  (py_gt y x = true -> max x y = y) /\
  (py_eq x y = true -> max x y = y) /\
  to_R (max x y) = to_R (max_spec x y).
Proof.
  repeat split.
  - intros H. unfold max. now rewrite H.
  - intros H. apply py_gt_true in H. unfold max, py_gt.
    destruct (Rgt_dec (to_R x) (to_R y)); [lra | reflexivity].
  - intros H. apply py_eq_true in H. unfold max, py_gt.
    destruct (Rgt_dec (to_R x) (to_R y)); [lra | reflexivity].
  - now rewrite to_R_max, to_R_max_spec.
Qed.

(** The three cases at numbers: [max(2.0, 1.0)], [max(1.0, 2.0)] and
    the tie [max(0, 0.0)] that [relu(0.0)] computes. *)
Lemma max_returns_witness :
  max (PyFloat 2) (PyFloat 1) = PyFloat 2 /\
  max (PyFloat 1) (PyFloat 2) = PyFloat 2 /\
  max (PyInt 0) (PyFloat 0) = PyFloat 0.
Proof.
  split; [|split].
  - apply (proj1 (max_returns (PyFloat 2) (PyFloat 1))).
    apply py_gt_true. simpl. lra.
  - apply (proj1 (proj2 (max_returns (PyFloat 1) (PyFloat 2)))).
    apply py_gt_true. simpl. lra.
  - apply (proj1 (proj2 (proj2 (max_returns (PyInt 0) (PyFloat 0))))).
    apply py_eq_true. reflexivity.
Defined.

(** C3, as the spec has it, fails on a tie of two numbers that are
    equal and not the same: [max(0, 0.0)] is the float [0.0], the second
    argument, where the spec's formula gives the int [0], the first. *)
Lemma max_tie_returns_second :
  py_eq (PyInt 0) (PyFloat 0) = true /\
  max (PyInt 0) (PyFloat 0) = PyFloat 0 /\
  max_spec (PyInt 0) (PyFloat 0) = PyInt 0 /\
  max (PyInt 0) (PyFloat 0) <> PyInt 0 /\
  max (PyInt 0) (PyFloat 0) <> max_spec (PyInt 0) (PyFloat 0).
Proof.
  assert (py_gt (PyInt 0) (PyFloat 0) = false) as G1.
  { unfold py_gt. simpl. destruct (Rgt_dec 0 0); [lra | reflexivity]. }
  assert (py_gt (PyFloat 0) (PyInt 0) = false) as G2.
  { unfold py_gt. simpl. destruct (Rgt_dec 0 0); [lra | reflexivity]. }
  unfold max, max_spec. rewrite G1, G2.
  repeat split; try discriminate.
  apply py_eq_true. reflexivity.
Qed.


Local Close Scope R_scope.

(** *** Which functions can raise *)

Lemma float_truediv_cases x y :
  (float_truediv x y = Raise ZeroDivisionError <-> SFeqb y zero = true) /\
  (returns (float_truediv x y) <-> SFeqb y zero = false).
Proof.
  unfold float_truediv.
  destruct (SFeqb y zero); repeat split; intros H;
    try reflexivity; try discriminate.
  - now apply raise_not_returns in H.
  - apply returns_Ok.
Qed.

(** Only a zero compares equal to [0.0]. *)
Lemma eqb_zero (x : float) :
  SFeqb x zero = true -> exists s, x = S754_zero s.
Proof.
  destruct x as [s|s| |s m e]; unfold SFeqb, SFcompare, zero;
    try destruct s; try discriminate; intros _; eauto.
Qed.

(** A positive finite float against a power of two: the exponents
    decide. *)
Lemma leb_power_of_two (m : positive) (e e' : Z) :
  SFleb (S754_finite false m e) (S754_finite false 4503599627370496 e') = true ->
  (e <= e')%Z.
Proof.
  unfold SFleb, SFcompare.
  destruct (Z.compare_spec e e') as [E|E|E]; intros Hle;
    try lia; try discriminate.
Qed.

Lemma power_of_two_leb (m : positive) (e e' : Z) :
  SFleb (S754_finite false 4503599627370496 e') (S754_finite false m e) = true ->
  (e' <= e)%Z.
Proof.
  unfold SFleb, SFcompare.
  destruct (Z.compare_spec e' e) as [E|E|E]; intros Hle;
    try lia; try discriminate.
Qed.

Lemma exponent_lt (m m' : positive) (e e' : Z) :
  (e < e')%Z ->
  SFcompare (S754_finite false m e) (S754_finite false m' e') = Some Lt.
Proof.
  intros H. unfold SFcompare. apply Z.compare_lt_iff in H. now rewrite H.
Qed.

Lemma exponent_gt (m m' : positive) (e e' : Z) :
  (e' < e)%Z ->
  SFcompare (S754_finite false m e) (S754_finite false m' e') = Some Gt.
Proof.
  intros H. unfold SFcompare. apply Z.compare_gt_iff in H. now rewrite H.
Qed.

(** The absolute value that [x ** 2] hands to the C function. *)
Lemma pow2_argument (s : bool) (m : positive) (e : Z) :
  SFeqb (S754_finite s m e) zero = false /\
  (if SFltb (S754_finite s m e) zero
   then float_neg (S754_finite s m e) else S754_finite s m e) =
  S754_finite false m e.
Proof. destruct s; split; reflexivity. Qed.

Section Libm.
Variable libm_exp : float -> float.
Variable libm_log : float -> float.
Variable libm_pow2 : float -> float.

Lemma log_raises (x : float) :
  (SFleb x zero = true -> log libm_log x = Raise ValueError) /\
  (forall e, log libm_log x = Raise e -> e = ValueError).
Proof.
  unfold log, math_log. split.
  - intros H. destruct x as [s|s| |s m e]; try destruct s;
      try discriminate; reflexivity.
  - intros e.
    destruct (is_nan x); [discriminate|].
    destruct (SFleb x zero); [now intros [= <-]|].
    destruct (is_inf x); [discriminate|].
    destruct (is_nan (libm_log x) || is_inf (libm_log x))%bool;
      [now intros [= <-] | discriminate].
Qed.

Lemma exp_raises (x : float) :
  (is_finite x = true -> SFleb exp_overflows_from x = true ->
   exp libm_exp x = Raise OverflowError) /\
  (forall e, exp libm_exp x = Raise e -> e = OverflowError \/ e = ValueError).
Proof.
  unfold exp, math_exp. split.
  - intros Hfin Hge. unfold c_exp. rewrite Hfin, Hge.
    cbn [andb is_nan is_inf]. reflexivity.
  - intros e.
    destruct (is_nan (c_exp libm_exp x) && negb (is_nan x))%bool;
      [intros [= <-]; now right|].
    destruct (is_inf (c_exp libm_exp x) && is_finite x)%bool;
      [intros [= <-]; now left | discriminate].
Qed.

Lemma pow2_of_zero (x : float) :
  SFeqb x zero = true -> float_pow2 libm_pow2 x = Ok zero.
Proof.
  intros H. destruct (eqb_zero x H) as [s ->]. reflexivity.
Qed.

Lemma pow2_vanishes (x : float) :
  is_finite x = true ->
  SFleb (float_abs x) square_vanishes_upto = true ->
  float_pow2 libm_pow2 x = Ok zero.
Proof.
  intros Hfin Hle.
  destruct x as [s|s| |s m e]; try discriminate; [reflexivity|].
  change (float_abs (S754_finite s m e)) with (S754_finite false m e) in Hle.
  pose proof (leb_power_of_two _ _ _ Hle) as He.
  destruct (pow2_argument s m e) as [Hz Hiv].
  unfold float_pow2. cbn [is_nan is_inf]. rewrite Hz, Hiv.
  unfold SFeqb at 1. unfold one. rewrite exponent_lt by lia.
  unfold c_pow2.
  replace (SFleb square_overflows_from (S754_finite false m e)) with false.
  2:{ destruct (SFleb square_overflows_from (S754_finite false m e)) eqn:E;
        [|reflexivity].
      apply power_of_two_leb in E. lia. }
  rewrite Hle. reflexivity.
Qed.

Lemma pow2_overflows (x : float) :
  is_finite x = true ->
  SFleb square_overflows_from (float_abs x) = true ->
  float_pow2 libm_pow2 x = Raise OverflowError.
Proof.
  intros Hfin Hge.
  destruct x as [s|s| |s m e]; try discriminate.
  change (float_abs (S754_finite s m e)) with (S754_finite false m e) in Hge.
  pose proof (power_of_two_leb _ _ _ Hge) as He.
  destruct (pow2_argument s m e) as [Hz Hiv].
  unfold float_pow2. cbn [is_nan is_inf]. rewrite Hz, Hiv.
  unfold SFeqb at 1. unfold one. rewrite exponent_gt by lia.
  unfold c_pow2. rewrite Hge. reflexivity.
Qed.

Lemma pow2_raises (x : float) (e : exn) :
  float_pow2 libm_pow2 x = Raise e -> e = OverflowError.
Proof.
  unfold float_pow2.
  destruct (is_nan x); [discriminate|].
  destruct (is_inf x); [discriminate|].
  destruct (SFeqb x zero); [discriminate|].
  destruct (SFeqb _ one); [discriminate|].
  destruct (is_inf _); [now intros [= <-] | discriminate].
Qed.

Lemma inv_back_raises (x d : float) :
  (inv_back libm_pow2 x d = Raise ZeroDivisionError <->
   exists square, float_pow2 libm_pow2 x = Ok square /\
                  SFeqb square zero = true) /\
  (inv_back libm_pow2 x d = Raise OverflowError <->
   float_pow2 libm_pow2 x = Raise OverflowError) /\
  (forall e, inv_back libm_pow2 x d = Raise e ->
             e = ZeroDivisionError \/ e = OverflowError).
Proof.
  unfold inv_back.
  destruct (float_pow2 libm_pow2 x) as [square|e0] eqn:Ep; cbn [bind].
  - destruct (float_truediv_cases (float_neg d) square) as [Hz Hr].
    unfold float_truediv in *.
    destruct (SFeqb square zero) eqn:Ez; repeat split.
    + intros _. now exists square.
    + discriminate.
    + discriminate.
    + intros e [= <-]. now left.
    + discriminate.
    + intros (sq & [= <-] & H). congruence.
    + discriminate.
    + discriminate.
    + discriminate.
  - pose proof (pow2_raises x Ep) as ->. repeat split.
    + discriminate.
    + intros (sq & H & _). discriminate.
    + intros e [= <-]. now right.
Qed.

Lemma map_returns (A B : Type) (fn : A -> result B) lst :
  (forall x, returns (fn x)) ->
  exists ys, map fn lst = Ok ys /\ List.length ys = List.length lst.
Proof.
  intros Hfn. induction lst as [|x rest (ys & E & Hlen)]; simpl.
  - now exists [].
  - destruct (Hfn x) as [y Hy]. rewrite Hy, E. simpl.
    exists (y :: ys). simpl. now rewrite Hlen.
Qed.

Lemma zipWith_returns (A B C : Type) (fn : A -> B -> result C) lst1 lst2 :
  (forall x y, returns (fn x y)) ->
  exists zs, zipWith fn lst1 lst2 = Ok zs /\
             List.length zs = Nat.min (List.length lst1) (List.length lst2).
Proof.
  intros Hfn. revert lst2.
  induction lst1 as [|x rest1 IH]; intros [|y rest2]; simpl;
    try (now exists []).
  destruct (Hfn x y) as [z Hz]. destruct (IH rest2) as (zs & E & Hlen).
  rewrite Hz, E. simpl. exists (z :: zs). simpl. now rewrite Hlen.
Qed.

Lemma reduce_returns (A B : Type) (fn : B -> A -> result B) lst start :
  (forall x y, returns (fn x y)) -> returns (reduce fn lst start).
Proof.
  intros Hfn. revert start.
  induction lst as [|x rest IH]; intros start; simpl.
  - apply returns_Ok.
  - destruct (Hfn start x) as [r Hr]. rewrite Hr. simpl. apply IH.
Qed.


End Libm.



End OperatorsFacts.

(** * Further properties of the module tree *)

Module ModuleTreeExtras.
Import ModuleTree.
Import ModuleTreeFacts.

Section Extras.
Variable V : Type.

Local Abbreviation Module := (Module V).
Local Abbreviation Param := (Param V).

(** *** Writing and reading a dict *)

Lemma lookup_setitem_same (A : Type) key (v : A) (d : Dict.t A) :
  lookup key (Dict.setitem key v d) = Some v.
Proof.
  unfold lookup.
  induction d as [|[k w] rest IHrest]; simpl.
  - now rewrite String.eqb_refl.
  - destruct (String.eqb key k) eqn:E; simpl; rewrite E; simpl.
    + reflexivity.
    + exact IHrest.
Qed.

Lemma lookup_setitem_other (A : Type) key key' (v : A) (d : Dict.t A) :
  key' <> key -> lookup key' (Dict.setitem key v d) = lookup key' d.
Proof.
  intros Hneq. apply String.eqb_neq in Hneq. unfold lookup.
  induction d as [|[k w] rest IHrest]; simpl.
  - now rewrite Hneq.
  - destruct (String.eqb key k) eqn:E; simpl.
    + apply String.eqb_eq in E. subst k. now rewrite Hneq.
    + destruct (String.eqb key' k); simpl; [reflexivity | exact IHrest].
Qed.

Lemma contains_In_keys (A : Type) key (d : Dict.t A) :
  Dict.contains key d = true <-> In key (Dict.keys d).
Proof.
  unfold Dict.keys.
  induction d as [|[k w] rest IHrest]; simpl.
  - split; [discriminate | contradiction].
  - destruct (String.eqb key k) eqn:E.
    + apply String.eqb_eq in E. subst k. split; auto.
    + apply String.eqb_neq in E. rewrite IHrest. split; auto.
      intros [H|H]; [congruence | exact H].
Qed.

(** A key already there keeps its place; a new key goes to the end. *)
Lemma keys_setitem (A : Type) key (v : A) (d : Dict.t A) :
  Dict.keys (Dict.setitem key v d) =
  if Dict.contains key d then Dict.keys d else Dict.keys d ++ [key].
Proof.
  unfold Dict.keys.
  induction d as [|[k w] rest IHrest]; simpl; [reflexivity|].
  destruct (String.eqb key k) eqn:E; simpl; [reflexivity|].
  rewrite IHrest. now destruct (Dict.contains key rest).
Qed.

Lemma setitem_fresh (A : Type) key (v : A) (d : Dict.t A) :
  Dict.contains key d = false -> Dict.setitem key v d = d ++ [(key, v)].
Proof.
  induction d as [|[k w] rest IHrest]; simpl; [reflexivity|].
  destruct (String.eqb key k); [discriminate|].
  intros H. now rewrite IHrest.
Qed.

Lemma wf_setitem (A : Type) key (v : A) (d : Dict.t A) :
  Dict.wf d -> Dict.wf (Dict.setitem key v d).
Proof.
  unfold Dict.wf. intros Hd. rewrite keys_setitem.
  destruct (Dict.contains key d) eqn:E; [exact Hd|].
  apply NoDup_app; [exact Hd | repeat constructor; intros [] |].
  intros a Ha [<-|[]].
  apply contains_In_keys in Ha. congruence.
Qed.

Lemma In_setitem (A : Type) key (v : A) (d : Dict.t A) kv :
  In kv (Dict.setitem key v d) -> kv = (key, v) \/ In kv d.
Proof.
  induction d as [|[k w] rest IHrest]; simpl.
  - intros [<-|[]]. now left.
  - destruct (String.eqb key k) eqn:E; simpl.
    + apply String.eqb_eq in E. subst k.
      intros [<-|H]; [now left | now right; right].
    + intros [<-|H]; [now right; left|].
      destruct (IHrest H) as [->|H']; [now left | now right; right].
Qed.

(** *** Adding a parameter and attaching a child *)

Lemma getattr_by_lookup (m : Module) key :
  __getattr__ m key =
  Ok (match lookup key (_parameters m) with
      | Some p => AParameter p
      | None =>
          match lookup key (_modules m) with
          | Some c => AModule c
          | None => ANone V
          end
      end).
Proof.
  unfold __getattr__. rewrite !contains_lookup, !getitem_lookup.
  destruct (lookup key (_parameters m)); [reflexivity|].
  destruct (lookup key (_modules m)); reflexivity.
Qed.

(** X1. [add_parameter(k, v)] returns a parameter that wraps [v] under
    the name [k], and reading the attribute [k] afterwards gives that
    parameter, whatever the module held before (also a child module of
    that name). *)
Theorem add_parameter_read (k : string) (v : V) (m : Module) :
  fst (add_parameter k v m) = mkParam v (Some k) /\
  __getattr__ (snd (add_parameter k v m)) k =
  Ok (AParameter (fst (add_parameter k v m))).
Proof.
  split; [reflexivity|].
  rewrite getattr_by_lookup. simpl.
  now rewrite lookup_setitem_same.
Qed.

(** X2. [add_parameter(k, v)] changes nothing but the binding of [k]:
    the mode and the child dict are as before, and every other name
    reads as before. *)
Theorem add_parameter_frame (k : string) (v : V) (m : Module) :
  training (snd (add_parameter k v m)) = training m /\
  _modules (snd (add_parameter k v m)) = _modules m /\
  (forall key, key <> k ->
     __getattr__ (snd (add_parameter k v m)) key = __getattr__ m key).
Proof.
  repeat split.
  intros key Hneq. rewrite !getattr_by_lookup. simpl.
  now rewrite lookup_setitem_other.
Qed.

(** X3. What [__getattr__] returns for a name, the method that Python
    calls for a name that is neither a plain field of the object nor an
    attribute of its class: after a child module was attached under the
    name it returns the child, unless the module has a parameter of
    that name, which it returns instead, since it looks at the
    parameters first; after a parameter was attached under the name it
    returns that parameter. *)
Theorem setattr_read (key : string) (m : Module) :
  (forall c : Module,
      __getattr__ (setattr_module key c m) key =
      Ok (match lookup key (_parameters m) with
          | Some p => AParameter p
          | None => AModule c
          end)) /\
  (forall p : Param,
      __getattr__ (setattr_parameter key p m) key = Ok (AParameter p)).
Proof.
  split.
  - intros c. rewrite getattr_by_lookup. simpl.
    now rewrite lookup_setitem_same.
  - intros p. rewrite getattr_by_lookup. simpl.
    now rewrite lookup_setitem_same.
Qed.

Lemma wf_tree_node t ps (ms : list (string * Module)) :
  wf_tree (mkModule t ps ms) <->
  Dict.wf ps /\ Dict.wf ms /\ Forall (fun km => wf_tree (snd km)) ms.
Proof.
  unfold wf_tree. rewrite nodes_unfold, Forall_cons_iff, Forall_flat_map.
  simpl. tauto.
Qed.

(** X4. The methods that build a tree keep the keys of every dict
    pairwise distinct: a new module has two empty dicts, and
    [add_parameter] and the attachment of a parameter or of a child
    keep the property. *)
Theorem wf_tree_preserved :
  wf_tree (__init__ V) /\
  (forall k v (m : Module), wf_tree m -> wf_tree (snd (add_parameter k v m))) /\
  (forall k p (m : Module), wf_tree m -> wf_tree (setattr_parameter k p m)) /\
  (forall k (c m : Module),
      wf_tree m -> wf_tree c -> wf_tree (setattr_module k c m)).
Proof.
  split; [|split; [|split]].
  - apply wf_tree_node. repeat split; constructor.
  - intros k v [t ps ms] H. apply wf_tree_node in H as (Hps & Hms & Hch).
    simpl. apply wf_tree_node. repeat split; auto. now apply wf_setitem.
  - intros k p [t ps ms] H. apply wf_tree_node in H as (Hps & Hms & Hch).
    simpl. apply wf_tree_node. repeat split; auto. now apply wf_setitem.
  - intros k c [t ps ms] H Hc. apply wf_tree_node in H as (Hps & Hms & Hch).
    unfold setattr_module. simpl. apply wf_tree_node.
    repeat split; auto.
    + now apply wf_setitem.
    + rewrite Forall_forall in Hch |- *. intros kv Hin.
      apply In_setitem in Hin as [->|Hin]; [exact Hc | now apply Hch].
Qed.

End Extras.

(** Reading [b] is not touched by adding [w]. *)
Lemma add_parameter_frame_witness :
  __getattr__ (snd (add_parameter "w" 2%Z (example_tree 1%Z 2%Z))) "b" =
  __getattr__ (example_tree 1%Z 2%Z) "b".
Proof.
  apply (proj2 (proj2 (add_parameter_frame "w" 2%Z (example_tree 1%Z 2%Z)))).
  discriminate.
Defined.

(** The tree of the example, built step by step, has distinct keys. *)
Lemma wf_tree_preserved_witness : wf_tree (example_tree 1%Z 2%Z).
Proof.
  unfold example_tree.
  apply (proj2 (proj2 (proj2 (@wf_tree_preserved Z)))).
  - apply (proj1 (proj2 (@wf_tree_preserved Z))).
    apply (proj1 (@wf_tree_preserved Z)).
  - apply (proj1 (proj2 (@wf_tree_preserved Z))).
    apply (proj1 (@wf_tree_preserved Z)).
Defined.

Section Traversal.
Variable V : Type.

Local Abbreviation Module := (Module V).
Local Abbreviation Param := (Param V).

(** *** Modes and enumeration *)

Lemma walk_keeps_enumeration (walk : Module -> Module) (b : bool) :
  (forall t ps ms,
      walk (mkModule t ps ms) =
      mkModule b ps (List.map (fun km => (fst km, walk (snd km))) ms)) ->
  forall m,
    named_parameters (walk m) = named_parameters m /\
    parameters (walk m) = parameters m.
Proof.
  intros walk_unfold m.
  induction m as [t ps ms IH] using Module_tree_ind.
  rewrite walk_unfold, !named_parameters_unfold, !parameters_unfold.
  rewrite !flat_map_map. simpl.
  split; f_equal; apply flat_map_Forall_ext;
    (eapply Forall_impl; [|exact IH]); intros km [Hn Hp]; simpl.
  - now rewrite Hn.
  - exact Hp.
Qed.

(** X5. [train] and [eval] change no enumeration: [named_parameters]
    and [parameters] give after the call what they gave before it. *)
Theorem mode_keeps_enumeration (m : Module) :
  named_parameters (train m) = named_parameters m /\
  parameters (train m) = parameters m /\
  named_parameters (eval m) = named_parameters m /\
  parameters (eval m) = parameters m.
Proof.
  destruct (walk_keeps_enumeration (@train V) (@train_unfold V) m) as [Hn Hp].
  destruct (walk_keeps_enumeration (@eval V) (@eval_unfold V) m) as [Hn' Hp'].
  auto.
Qed.

(** X6. Of two mode calls the last one decides: [eval] after [train]
    leaves the tree that [eval] alone leaves, and [train] after [eval]
    the tree that [train] alone leaves. *)
Theorem last_mode_wins (m : Module) :
  eval (train m) = eval m /\ train (eval m) = train m.
Proof.
  induction m as [t ps ms IH] using Module_tree_ind.
  rewrite (train_unfold t), (eval_unfold t), train_unfold, eval_unfold.
  rewrite !map_map. simpl.
  split; f_equal; apply map_Forall_ext;
    (eapply Forall_impl; [|exact IH]); intros km [He Ht]; simpl.
  - now rewrite He.
  - now rewrite Ht.
Qed.

Lemma flat_map_flat_map (A B C : Type) (f : B -> list C) (g : A -> list B) l :
  flat_map f (flat_map g l) = flat_map (fun a => flat_map f (g a)) l.
Proof.
  induction l as [|a l IHl]; simpl; [reflexivity|].
  now rewrite flat_map_app, IHl.
Qed.

(** X7. [parameters] yields exactly the parameters stored at the nodes
    of the tree: the values of the node's own dict, then those of each
    descendant, in depth-first pre-order; so it yields nothing exactly
    when every parameter dict of the tree is empty. *)
Theorem parameters_by_nodes (m : Module) :
  parameters m = flat_map (fun n => Dict.values (_parameters n)) (nodes m) /\
  (parameters m = [] <-> Forall (fun n => _parameters n = []) (nodes m)).
Proof.
  assert (parameters m =
          flat_map (fun n => Dict.values (_parameters n)) (nodes m)) as E.
  { induction m as [t ps ms IH] using Module_tree_ind.
    rewrite parameters_unfold, nodes_unfold. simpl. f_equal.
    rewrite flat_map_flat_map. now apply flat_map_Forall_ext. }
  split; [exact E|].
  rewrite E. generalize (nodes m) as l.
  induction l as [|n l IHl]; simpl.
  - split; auto.
  - rewrite Forall_cons_iff, <- IHl. unfold Dict.values.
    destruct (_parameters n); simpl; split.
    + auto.
    + now intros [_ H].
    + discriminate.
    + intros [H _]. discriminate.
Qed.

Lemma setitem_bound (A : Type) key (v : A) (d : Dict.t A) :
  Dict.contains key d = true ->
  exists before old after,
    d = before ++ (key, old) :: after /\
    ~ In key (Dict.keys before) /\
    Dict.setitem key v d = before ++ (key, v) :: after.
Proof.
  induction d as [|[k w] rest IHrest]; simpl; [discriminate|].
  destruct (String.eqb key k) eqn:E.
  - apply String.eqb_eq in E. subst k. intros _.
    exists [], w, rest. repeat split. intros [].
  - intros H. destruct (IHrest H) as (before & old & after & -> & Hnot & ->).
    exists ((k, w) :: before), old, after. repeat split.
    simpl. intros [Hk|Hin]; [|contradiction].
    apply String.eqb_neq in E. congruence.
Qed.

(** X8. Where a parameter that is added shows up in the enumeration:
    under a name that is new, after the node's own parameters and
    before those of the children; under a name already bound, in the
    place of the first and only binding of that name, whose old
    parameter it replaces, while all other pairs and the order stay. *)
Theorem add_parameter_enumeration (k : string) (v : V) (m : Module) :
  (Dict.contains k (_parameters m) = false ->
   named_parameters (snd (add_parameter k v m)) =
   Dict.items (_parameters m) ++ [(k, mkParam v (Some k))] ++
   flat_map (fun km =>
       List.map (prefixed (fst km)) (named_parameters (snd km)))
     (_modules m)) /\
  (Dict.contains k (_parameters m) = true ->
   exists before old after children,
     ~ In k (Dict.keys before) /\
     named_parameters m =
     before ++ (k, old) :: after ++ children /\
     named_parameters (snd (add_parameter k v m)) =
     before ++ (k, mkParam v (Some k)) :: after ++ children).
Proof.
  destruct m as [t ps ms]. unfold add_parameter, new_parameter.
  cbn [snd _parameters _modules training]. split; intros Hk.
  - rewrite named_parameters_unfold, setitem_fresh by exact Hk.
    unfold Dict.items. now rewrite <- app_assoc.
  - destruct (@setitem_bound _ k (mkParam v (Some k)) ps Hk)
      as (before & old & after & Hps & Hnot & Hset).
    exists before, old, after.
    exists (flat_map (fun km =>
              List.map (prefixed (fst km)) (named_parameters (snd km))) ms).
    split; [exact Hnot|].
    rewrite !named_parameters_unfold, Hset. rewrite Hps at 1.
    rewrite <- !app_assoc. split; reflexivity.
Qed.

End Traversal.

(** A new module has no parameter to yield. *)
Lemma parameters_by_nodes_witness : parameters (__init__ Z) = [].
Proof.
  apply (proj2 (proj2 (parameters_by_nodes (__init__ Z)))).
  repeat constructor.
Defined.

(** Adding [c] to the example tree puts it between [b] and [lin.w];
    adding [b] again puts the new parameter where the old one was. *)
Lemma add_parameter_enumeration_witness :
  named_parameters (snd (add_parameter "c" 3%Z (example_tree 1%Z 2%Z))) =
  [("b"%string, mkParam 1%Z (Some "b"%string));
   ("c"%string, mkParam 3%Z (Some "c"%string));
   ("lin.w"%string, mkParam 2%Z (Some "w"%string))] /\
  exists before old after children,
    ~ In "b"%string (Dict.keys before) /\
    named_parameters (example_tree 1%Z 2%Z) =
    before ++ ("b"%string, old) :: after ++ children /\
    named_parameters (snd (add_parameter "b" 3%Z (example_tree 1%Z 2%Z))) =
    before ++ ("b"%string, mkParam 3%Z (Some "b"%string)) :: after ++ children.
Proof.
  split.
  - apply (proj1 (add_parameter_enumeration "c" 3%Z (example_tree 1%Z 2%Z))).
    reflexivity.
  - apply (proj2 (add_parameter_enumeration "b" 3%Z (example_tree 1%Z 2%Z))).
    reflexivity.
Defined.

(** *** The string representation *)

Section Repr.
Variable V : Type.

Local Abbreviation Module := (Module V).

Lemma string_app_assoc (a b c : string) :
  ((a ++ b) ++ c)%string = (a ++ b ++ c)%string.
Proof.
  induction a as [|x a IHa]; simpl; [reflexivity | now rewrite IHa].
Qed.

Lemma split_newline_nonempty (s : string) : split_newline s <> [].
Proof.
  destruct s as [|c s]; simpl; [discriminate|].
  destruct (Ascii.eqb c newline); [discriminate|].
  destruct (split_newline s); discriminate.
Qed.

(** Splitting at the newlines and joining with newlines gives the
    string back. *)
Lemma join_split_newline (s : string) :
  join (String newline EmptyString) (split_newline s) = s.
Proof.
  induction s as [|c s IHs]; simpl; [reflexivity|].
  pose proof (split_newline_nonempty s) as Hne.
  destruct (split_newline s) as [|first rest]; [contradiction|].
  destruct (Ascii.eqb c newline) eqn:E.
  - apply Ascii.eqb_eq in E. subst c.
    rewrite <- IHs. reflexivity.
  - rewrite <- IHs. destruct rest; reflexivity.
Qed.

Lemma split_newline_indented (n : nat) (s : string) :
  match split_newline s with
  | [] => False
  | first :: rest =>
      match rest with
      | [] => first
      | _ :: _ =>
          (first ++ String newline EmptyString ++
           join (String newline EmptyString)
                (List.map (fun line => (spaces n ++ line)%string) rest))%string
      end = indent_newlines n s
  end.
Proof.
  induction s as [|c s IHs]; simpl; [reflexivity|].
  destruct (Ascii.eqb c newline) eqn:E.
  - apply Ascii.eqb_eq in E. subst c.
    destruct (split_newline s) as [|first rest]; [contradiction|].
    simpl. f_equal. rewrite <- IHs.
    destruct rest as [|x rest]; simpl; [reflexivity|].
    now rewrite string_app_assoc.
  - destruct (split_newline s) as [|first rest]; [contradiction|].
    rewrite <- IHs. destruct rest; reflexivity.
Qed.

Lemma addindent_closed_form (s : string) (n : nat) :
  _addindent s n = indent_newlines n s.
Proof.
  unfold _addindent.
  pose proof (split_newline_indented n s) as H.
  pose proof (join_split_newline s) as J.
  destruct (split_newline s) as [|first rest]; [contradiction|].
  destruct rest as [|x rest]; simpl in *.
  - now rewrite <- H.
  - exact H.
Qed.

(** X9. [_addindent(s, n)] is [s] with [n] spaces put after each of its
    newlines, for a string of any number of lines; with [n = 0] the
    string comes back as it is, and the text keeps its lines: splitting
    the result at the newlines gives as many pieces as splitting [s]. *)
Theorem addindent_indent_newlines (s : string) (n : nat) :
  _addindent s n = indent_newlines n s /\
  _addindent s 0 = s /\
  List.length (split_newline (_addindent s n)) =
  List.length (split_newline s).
Proof.
  split; [apply addindent_closed_form|]. split.
  - rewrite addindent_closed_form.
    induction s as [|c s IHs]; simpl; [reflexivity|].
    destruct (Ascii.eqb c newline); simpl; now rewrite IHs.
  - rewrite addindent_closed_form.
    assert (forall k t,
               List.length (split_newline (spaces k ++ t)) =
               List.length (split_newline t)) as Hsp.
    { induction k as [|k IHk]; intros t; simpl; [reflexivity|].
      specialize (IHk t).
      pose proof (split_newline_nonempty (spaces k ++ t)) as Hne.
      destruct (split_newline (spaces k ++ t)); [contradiction|].
      exact IHk. }
    induction s as [|c s IHs]; simpl; [reflexivity|].
    destruct (Ascii.eqb c newline) eqn:E; simpl; rewrite E.
    + simpl. now rewrite Hsp, IHs.
    + pose proof (split_newline_nonempty s) as Hne.
      pose proof (split_newline_nonempty (indent_newlines n s)) as Hne'.
      destruct (split_newline s), (split_newline (indent_newlines n s));
        try contradiction.
      exact IHs.
Qed.

Lemma repr_unfold t ps (ms : list (string * Module)) :
  __repr__ (mkModule t ps ms) =
  (let lines :=
     List.map (fun km =>
         ("(" ++ fst km ++ "): " ++ _addindent (__repr__ (snd km)) 2)%string)
       ms in
   ("Module(" ++
    match lines with
    | [] => EmptyString
    | _ :: _ =>
        (String newline "  " ++ join (String newline "  ") lines ++
         String newline EmptyString)%string
    end ++ ")")%string).
Proof.
  cbn [__repr__].
  match goal with
  | |- context [(fix loop (ms0 : list (string * Module))
                   (child_lines : list string) {struct ms0} := _) ms []] =>
      set (lp := (fix loop (ms0 : list (string * Module))
                    (child_lines : list string) {struct ms0} := _))
  end.
  assert (forall l acc,
             lp l acc =
             acc ++ List.map (fun km =>
                 ("(" ++ fst km ++ "): " ++
                  _addindent (__repr__ (snd km)) 2)%string) l) as Hlp.
  { induction l as [|[k c] l IHl]; intros acc; simpl.
    - now rewrite app_nil_r.
    - rewrite IHl, <- app_assoc. reflexivity. }
  rewrite Hlp. simpl.
  destruct (List.map _ ms); reflexivity.
Qed.

Lemma join_lines (lines : list string) :
  lines <> [] ->
  (String newline "  " ++ join (String newline "  ") lines)%string =
  join EmptyString
       (List.map (fun line => (String newline "  " ++ line)%string) lines).
Proof.
  induction lines as [|x [|y rest] IH]; intros Hne; [contradiction| |].
  - reflexivity.
  - change (join (String newline "  ") (x :: y :: rest))
      with (x ++ String newline "  " ++ join (String newline "  ") (y :: rest))%string.
    rewrite IH by discriminate.
    cbn [List.map join]. rewrite string_app_assoc. reflexivity.
Qed.

(** X10. The text of a module: ["Module()"] when it has no child;
    otherwise ["Module("], then for each child in insertion order a
    new line with two spaces, the attachment name in brackets and the
    child's own text with two more spaces after each of its newlines,
    then a newline and [")"]. *)
Theorem repr_text t ps (ms : list (string * Module)) :
  __repr__ (mkModule t ps ms) =
  match ms with
  | [] => "Module()"%string
  | _ :: _ =>
      ("Module(" ++
       join EmptyString
            (List.map (fun km => child_text (fst km) (__repr__ (snd km))) ms) ++
       String newline ")")%string
  end.
Proof.
  rewrite repr_unfold. cbv zeta.
  destruct ms as [|km ms]; [reflexivity|].
  set (lines := List.map _ (km :: ms)).
  assert (lines <> []) as Hne by (unfold lines; simpl; discriminate).
  destruct lines as [|l0 ls] eqn:El; [contradiction|].
  rewrite <- !string_app_assoc, (string_app_assoc "Module(").
  rewrite join_lines by discriminate.
  rewrite <- El. unfold lines. rewrite map_map.
  rewrite !string_app_assoc.
  f_equal. f_equal.
  - f_equal. apply map_ext. intros [k c]. unfold child_text. simpl.
    now rewrite addindent_closed_form.
Qed.

End Repr.

Section ReprFrame.
Variable V : Type.

Local Abbreviation Module := (Module V).

Lemma walk_keeps_repr (walk : Module -> Module) (b : bool) :
  (forall t ps ms,
      walk (mkModule t ps ms) =
      mkModule b ps (List.map (fun km => (fst km, walk (snd km))) ms)) ->
  forall m, __repr__ (walk m) = __repr__ m.
Proof.
  intros walk_unfold m.
  induction m as [t ps ms IH] using Module_tree_ind.
  rewrite walk_unfold, !repr_unfold, map_map. cbn [fst snd].
  assert (List.map (fun km : string * Module =>
             ("(" ++ fst km ++ "): " ++
              _addindent (__repr__ (walk (snd km))) 2)%string) ms =
          List.map (fun km : string * Module =>
             ("(" ++ fst km ++ "): " ++
              _addindent (__repr__ (snd km)) 2)%string) ms) as E.
  { apply map_Forall_ext.
    eapply Forall_impl; [|exact IH]. intros km Hkm. cbn beta in Hkm.
    now rewrite Hkm. }
  now rewrite E.
Qed.

(** X11. The text of a module shows the tree of children only: it is
    the same after [train], after [eval] and after [add_parameter]. *)
Theorem repr_shows_children_only (m : Module) :
  __repr__ (train m) = __repr__ m /\
  __repr__ (eval m) = __repr__ m /\
  (forall k v, __repr__ (snd (add_parameter k v m)) = __repr__ m).
Proof.
  split; [|split].
  - apply (walk_keeps_repr (@train V) (@train_unfold V)).
  - apply (walk_keeps_repr (@eval V) (@eval_unfold V)).
  - intros k v. destruct m as [t ps ms].
    unfold add_parameter. cbn [snd _modules _parameters training].
    now rewrite !repr_unfold.
Qed.

End ReprFrame.

Section Children.
Variable V : Type.

Local Abbreviation Module := (Module V).

Lemma In_setitem_same (A : Type) key (v : A) (d : Dict.t A) :
  In (key, v) (Dict.setitem key v d).
Proof.
  induction d as [|[k w] rest IHrest]; simpl; [now left|].
  destruct (String.eqb key k) eqn:E.
  - apply String.eqb_eq in E. subst k. now left.
  - now right.
Qed.


End Children.


End ModuleTreeExtras.

(** * Further properties of the operators library *)

Module OperatorsExtras.
Import Operators.
Import OperatorsFacts.

Local Open Scope R_scope.

(** *** The backward function of [relu] is its derivative *)

Lemma relu_at_nonneg (r : R) : 0 <= r -> relu_at r = r.
Proof.
  intros Hr. unfold relu_at, relu, max, py_gt. simpl.
  destruct (Rgt_dec 0 r); [lra | reflexivity].
Qed.

Lemma relu_at_neg (r : R) : r < 0 -> relu_at r = 0.
Proof.
  intros Hr. unfold relu_at, relu, max, py_gt. simpl.
  destruct (Rgt_dec 0 r); [reflexivity | lra].
Qed.

Lemma relu_at_derivative_pos (r : R) : 0 < r -> derivable_pt_lim relu_at r 1.
Proof.
  intros Hr eps Heps. exists (mkposreal r Hr). simpl. intros h Hh Hsmall.
  assert (0 <= r + h).
  { destruct (Rcase_abs h) as [Hneg|Hpos].
    - rewrite Rabs_left in Hsmall by exact Hneg. lra.
    - lra. }
  rewrite !relu_at_nonneg by lra.
  replace ((r + h - r) / h - 1) with 0 by (field; exact Hh).
  now rewrite Rabs_R0.
Qed.

Lemma relu_at_derivative_neg (r : R) : r < 0 -> derivable_pt_lim relu_at r 0.
Proof.
  intros Hr eps Heps.
  assert (0 < - r) as Hpos by lra.
  exists (mkposreal (- r) Hpos). simpl. intros h Hh Hsmall.
  assert (r + h < 0).
  { destruct (Rcase_abs h) as [Hneg|Hnn].
    - lra.
    - rewrite Rabs_right in Hsmall by exact Hnn. lra. }
  rewrite !relu_at_neg by lra.
  replace ((0 - 0) / h - 0) with 0 by (field; exact Hh).
  now rewrite Rabs_R0.
Qed.

(** X14. [relu] returns its argument when it is not negative and the
    int [0] when it is negative.  [relu_back(x, d)] is [d] times the
    derivative of [relu] at [x]: [d] for [x > 0], zero for [x < 0]; at
    [x = 0], where [relu] has no derivative, it returns the int [0]. *)
Theorem relu_back_gradient (x d : number) :
  (0 <= to_R x -> relu x = x) /\
  (to_R x < 0 -> relu x = PyInt 0) /\
  (0 < to_R x ->
   derivable_pt_lim relu_at (to_R x) 1 /\ relu_back x d = d) /\
  (to_R x < 0 ->
   derivable_pt_lim relu_at (to_R x) 0 /\ relu_back x d = PyInt 0) /\
  (to_R x = 0 -> relu_back x d = PyInt 0).
Proof.
  unfold relu, max, relu_back, py_gt. simpl (to_R (PyInt 0)).
  split; [|split; [|split; [|split]]]; intros Hx.
  - destruct (Rgt_dec 0 (to_R x)); [lra | reflexivity].
  - destruct (Rgt_dec 0 (to_R x)); [reflexivity | lra].
  - split; [now apply relu_at_derivative_pos|].
    destruct (Rgt_dec (to_R x) 0); [reflexivity | lra].
  - split; [now apply relu_at_derivative_neg|].
    destruct (Rgt_dec (to_R x) 0); [lra | reflexivity].
  - destruct (Rgt_dec (to_R x) 0); [lra | reflexivity].
Qed.

Lemma relu_back_gradient_witness :
  relu (PyFloat 0) = PyFloat 0 /\
  relu (PyFloat (-1)) = PyInt 0 /\
  (derivable_pt_lim relu_at 2 1 /\ relu_back (PyFloat 2) (PyFloat 3) = PyFloat 3) /\
  (derivable_pt_lim relu_at (-1) 0 /\
   relu_back (PyFloat (-1)) (PyFloat 3) = PyInt 0) /\
  relu_back (PyInt 0) (PyFloat 3) = PyInt 0.
Proof.
  split; [|split; [|split; [|split]]].
  - apply (proj1 (relu_back_gradient (PyFloat 0) (PyFloat 0))). simpl. lra.
  - apply (proj1 (proj2 (relu_back_gradient (PyFloat (-1)) (PyFloat 0)))).
    simpl. lra.
  - apply (proj1 (proj2 (proj2 (relu_back_gradient (PyFloat 2) (PyFloat 3))))).
    simpl. lra.
  - apply (proj1 (proj2 (proj2 (proj2
             (relu_back_gradient (PyFloat (-1)) (PyFloat 3)))))).
    simpl. lra.
  - apply (proj2 (proj2 (proj2 (proj2
             (relu_back_gradient (PyInt 0) (PyFloat 3)))))).
    reflexivity.
Defined.

(** *** Comparison *)

Lemma lt_true x y : lt x y = true <-> to_R x < to_R y.
Proof.
  unfold lt, py_lt. destruct (Rlt_dec (to_R x) (to_R y)); split;
    intros; try assumption; try reflexivity; try discriminate; contradiction.
Qed.

Lemma eq_true x y : eq x y = true <-> to_R x = to_R y.
Proof. apply py_eq_true. Qed.

(** X19. [lt] is a strict order on the values and [eq] is equality of
    values: no number is less than itself, [lt] carries over a chain,
    and of [lt(x, y)], [eq(x, y)] and [lt(y, x)] exactly one holds.
    [eq] holds of the int [1] and the float [1.0]. *)
Theorem lt_eq_order :
  (forall x, lt x x = false) /\
  (forall x y z, lt x y = true -> lt y z = true -> lt x z = true) /\
  (forall x y,
      (lt x y = true /\ eq x y = false /\ lt y x = false) \/
      (lt x y = false /\ eq x y = true /\ lt y x = false) \/
      (lt x y = false /\ eq x y = false /\ lt y x = true)) /\
  eq (PyInt 1) (PyFloat 1) = true.
Proof.
  assert (forall x y, to_R y <= to_R x -> lt x y = false) as lt_false.
  { intros x y H. destruct (lt x y) eqn:E; [|reflexivity].
    apply lt_true in E. lra. }
  assert (forall x y, to_R x <> to_R y -> eq x y = false) as eq_false.
  { intros x y H. destruct (eq x y) eqn:E; [|reflexivity].
    apply eq_true in E. contradiction. }
  split; [|split; [|split]].
  - intros x. apply lt_false. lra.
  - intros x y z Hxy Hyz. apply lt_true in Hxy, Hyz. apply lt_true. lra.
  - intros x y. destruct (Rtotal_order (to_R x) (to_R y)) as [H|[H|H]].
    + left. repeat split; [now apply lt_true | apply eq_false | apply lt_false];
        lra.
    + right; left.
      repeat split; [apply lt_false | now apply eq_true | apply lt_false]; lra.
    + right; right.
      repeat split; [apply lt_false | apply eq_false | now apply lt_true]; lra.
  - apply eq_true. reflexivity.
Qed.

Lemma lt_eq_order_witness : lt (PyInt 1) (PyFloat 3) = true.
Proof.
  apply (proj1 (proj2 lt_eq_order) (PyInt 1) (PyFloat 2) (PyFloat 3));
    apply lt_true; simpl; lra.
Defined.

(** *** The higher-order functions *)

Section HigherOrder.
Variables A B C : Type.

(** X20. [map] returns a list exactly when the function returns on
    every element, and then the result holds, place by place, what the
    function returned: same length, same order. *)
Theorem map_elementwise (fn : A -> result B) lst ys :
  map fn lst = Ok ys <-> Forall2 (fun x y => fn x = Ok y) lst ys.
Proof.
  revert ys. induction lst as [|x rest IH]; intros ys; simpl.
  - split.
    + intros E. injection E as <-. constructor.
    + intros H. inversion H. reflexivity.
  - split.
    + destruct (fn x) as [y|e] eqn:Ex; simpl; [|discriminate].
      destruct (map fn rest) as [ys'|e] eqn:Er; simpl; [|discriminate].
      intros E. injection E as <-. constructor; [exact Ex|].
      now apply IH.
    + intros H. inversion H as [|? y ? ys' Hx Hrest]; subst.
      rewrite Hx. simpl. apply IH in Hrest. rewrite Hrest. reflexivity.
Qed.

(** X21. When the function raises on an element and returns on all the
    elements before it, [map] raises that exception, whatever comes
    after the element. *)
Theorem map_first_error (fn : A -> result B) (before : list A) x after e :
  Forall (fun y => returns (fn y)) before ->
  fn x = Raise e ->
  map fn (before ++ x :: after) = Raise e.
Proof.
  intros Hbefore Hx.
  induction Hbefore as [|y before [v Hy] _ IH]; simpl.
  - now rewrite Hx.
  - rewrite Hy, IH. reflexivity.
Qed.

Lemma zipWith_fn2 (f : A -> B -> C) lst1 lst2 :
  zipWith (fn2 f) lst1 lst2 =
  Ok (List.map (fun xy => f (fst xy) (snd xy)) (combine lst1 lst2)).
Proof.
  revert lst2. induction lst1 as [|x rest1 IH]; intros [|y rest2];
    simpl; try reflexivity.
  rewrite IH. reflexivity.
Qed.

(** X22. [zipWith] stops at the end of the shorter list: the elements
    of the longer list beyond that length are never passed to the
    function, so the call is the call on the two lists cut to the
    shorter length; with a function that cannot raise, the result is
    the list of the function's values on the pairs. *)
Theorem zipWith_shorter :
  (forall (fn : A -> B -> result C) lst1 lst2,
      let n := Nat.min (List.length lst1) (List.length lst2) in
      zipWith fn lst1 lst2 = zipWith fn (firstn n lst1) (firstn n lst2)) /\
  (forall (f : A -> B -> C) lst1 lst2,
      zipWith (fn2 f) lst1 lst2 =
      Ok (List.map (fun xy => f (fst xy) (snd xy)) (combine lst1 lst2))) /\
  (forall (fn : A -> B -> result C) lst1 lst2 zs,
      zipWith fn lst1 lst2 = Ok zs ->
      List.length zs = Nat.min (List.length lst1) (List.length lst2)).
Proof.
  split; [|split].
  - intros fn lst1. induction lst1 as [|x rest1 IH]; intros [|y rest2];
      simpl; try reflexivity.
    now rewrite <- IH.
  - exact zipWith_fn2.
  - intros fn lst1. induction lst1 as [|x rest1 IH]; intros [|y rest2] zs;
      simpl; try (intros E; injection E as <-; reflexivity).
    destruct (fn x y); simpl; [|discriminate].
    destruct (zipWith fn rest1 rest2) as [zs'|] eqn:Er; simpl; [|discriminate].
    intros E. injection E as <-. simpl. f_equal. now apply IH.
Qed.

(** X23. [reduce] is a left fold: on the empty list it returns the
    start value; on two lists one after the other it is the fold of the
    second started from the result of the first, and an exception in
    the first ends the call; with a function that cannot raise it is
    the left fold of that function. *)
Theorem reduce_left_fold :
  (forall (fn : B -> A -> result B) start, reduce fn [] start = Ok start) /\
  (forall (fn : B -> A -> result B) lst1 lst2 start,
      reduce fn (lst1 ++ lst2) start =
      (r <- reduce fn lst1 start ;; reduce fn lst2 r)) /\
  (forall (f : B -> A -> B) lst start,
      reduce (fn2 f) lst start = Ok (fold_left f lst start)).
Proof.
  split; [reflexivity|]. split.
  - intros fn lst1. induction lst1 as [|x rest IH]; intros lst2 start; simpl.
    + reflexivity.
    + destruct (fn start x); simpl; [apply IH | reflexivity].
  - intros f lst. induction lst as [|x rest IH]; intros start; simpl.
    + reflexivity.
    + apply IH.
Qed.

Lemma map_fn1 (f : A -> B) lst : map (fn1 f) lst = Ok (List.map f lst).
Proof.
  induction lst as [|x rest IH]; simpl; [reflexivity|].
  rewrite IH. reflexivity.
Qed.

End HigherOrder.

Lemma map_elementwise_witness :
  map (fn1 neg) [PyInt 1; PyFloat 2] = Ok [PyInt (-1); PyFloat (- 2)].
Proof.
  apply (proj2 (map_elementwise (fn1 neg) [PyInt 1; PyFloat 2]
                  [PyInt (-1); PyFloat (- 2)])).
  repeat constructor.
Defined.

Lemma map_first_error_witness :
  map inv [one; zero; one] = Raise ZeroDivisionError.
Proof.
  apply (@map_first_error float float inv [one] zero [one]).
  - constructor; [|constructor]. eexists. reflexivity.
  - reflexivity.
Defined.

Lemma zipWith_shorter_witness :
  List.length [PyInt 3] =
  Nat.min (List.length [PyInt 1; PyInt 2]) (List.length [PyInt 3]).
Proof.
  apply (proj2 (proj2 (@zipWith_shorter number number number)) (fn2 max)
           [PyInt 1; PyInt 2] [PyInt 3] [PyInt 3]).
  simpl. unfold fn2. simpl. do 3 f_equal.
  unfold max, py_gt. simpl.
  destruct (Rgt_dec 1 3); [lra | reflexivity].
Defined.

(** *** The list functions *)



End OperatorsExtras.

